(** * Model of the UART WebSocket bridge (uart_manager.py, websocket_handler.py, main.py)

    Shallow embedding of the serial-link manager [UARTManager], the
    WebSocket session manager [WebSocketManager] and the HTTP handler
    [send_to_uart].  Every effect of the outside world (pyserial device
    calls, thread scheduling, WebSocket sends) is an explicit argument: an
    outcome chosen by the environment, so that each Python method becomes a
    pure state transformer. *)

From Stdlib Require Import Strings.String Strings.Ascii Init.Byte.
From stdpp Require Import base gmap sets list.

Open Scope string_scope.

(* ------------------------------------------------------------------ *)
(** ** models.py and config.py *)

(** [settings] (config.py): the fields read by [get_status]. *)
Record Settings := mkSettings {
  uart_port : string;
  uart_baudrate : nat;
  uart_bytesize : nat;
  uart_stopbits : nat;
  uart_parity : string
}.

(** [UARTStatus] (models.py). *)
Record UARTStatus := mkUARTStatus {
  connected : bool;
  port : string;
  baudrate : nat;
  bytesize : nat;
  stopbits : nat;
  parity : string
}.

(** [InfoMessage] (models.py); the timestamp is not modelled. *)
Inductive InfoKind := KInfo | KError | KWarning.

Record InfoMessage := mkInfoMessage {
  info_type : InfoKind;
  info_message : string;
  uartStatus : option UARTStatus
}.

(** Exceptions raised by pyserial calls.  [SerialTimeoutException] is a
    subclass of [SerialException]; [OtherException] is any other
    [Exception]. *)
Inductive exn := SerialTimeoutException | SerialException | OtherException.

(* ------------------------------------------------------------------ *)
(** ** uart_manager.py *)

Module UART.

(** A [serial.Serial] object: the handle id and its own [is_open] flag. *)
Record Port := mkPort { port_id : nat; port_is_open : bool }.

(** The attributes of [UARTManager], plus the device side: [tx_log] lists
    every call [serial_port.write(data)] made on a handle (handle id,
    data), [rx_chunks] every chunk handed to [data_callback].
    [read_thread] is [Some alive] once a thread object was created. *)
Record State := mkState {
  serial_port : option Port;
  is_open : bool;
  read_thread : option bool;
  running : bool;
  data_callback : bool;
  tx_log : list (nat * list byte);
  rx_chunks : list (list byte)
}.

(** [UARTManager.__init__]. *)
Definition init : State := mkState None false None false false [] [].

Definition set_port (p : option Port) (s : State) : State :=
  mkState p (is_open s) (read_thread s) (running s) (data_callback s) (tx_log s) (rx_chunks s).
Definition set_is_open (b : bool) (s : State) : State :=
  mkState (serial_port s) b (read_thread s) (running s) (data_callback s) (tx_log s) (rx_chunks s).
Definition set_read_thread (t : option bool) (s : State) : State :=
  mkState (serial_port s) (is_open s) t (running s) (data_callback s) (tx_log s) (rx_chunks s).
Definition set_running (b : bool) (s : State) : State :=
  mkState (serial_port s) (is_open s) (read_thread s) b (data_callback s) (tx_log s) (rx_chunks s).
Definition log_tx (e : nat * list byte) (s : State) : State :=
  mkState (serial_port s) (is_open s) (read_thread s) (running s) (data_callback s) (tx_log s ++ [e]) (rx_chunks s).
Definition log_rx (c : list byte) (s : State) : State :=
  mkState (serial_port s) (is_open s) (read_thread s) (running s) (data_callback s) (tx_log s) (rx_chunks s ++ [c]).

(** Outcome of the body of the [try] in [connect]: [serial.Serial(...)]
    either returns a fresh handle or raises; [read_thread.start()] either
    succeeds or raises. *)
Record ConnectEnv := mkConnectEnv {
  env_open : option nat;
  env_thread_ok : bool
}.

(** [UARTManager.connect] (lines 22-57). *)
Definition connect (e : ConnectEnv) (s : State) : bool * State :=
  if is_open s then (true, s)
  else match env_open e with
       | None => (false, set_is_open false s)
       | Some id =>
           let s1 := set_running true (set_is_open true (set_port (Some (mkPort id true)) s)) in
           if env_thread_ok e then (true, set_read_thread (Some true) s1)
           else (false, set_is_open false (set_read_thread (Some false) s1))
       end.

(** [UARTManager.disconnect] (lines 59-76).  [joined] says whether
    [read_thread.join(timeout=2)] saw the thread terminate. *)
Definition disconnect (joined : bool) (s : State) : State :=
  let s1 := set_running false s in
  let s2 := match read_thread s1 with
            | Some true => if joined then set_read_thread (Some false) s1 else s1
            | _ => s1
            end in
  (* [serial_port.close()] is called when the handle is open; the handle is
     dropped right after, so its closing is not recorded further. *)
  set_port None (set_is_open false s2).

(** Outcome of one iteration of the body of [_read_loop]: [in_waiting] is
    zero, [read] returns a chunk, or a call raises. *)
Inductive ReadEnv :=
  | NothingWaiting
  | ReadData (chunk : list byte)
  | ReadRaises (x : exn).

Definition loop_guard (s : State) : bool :=
  running s && match serial_port s with Some p => port_is_open p | None => false end.

(** One test of the [while] of [_read_loop] (lines 78-103) followed, when
    it holds, by one iteration of its body.  The boolean is [true] when the
    loop goes on, [false] when the thread exits. *)
Definition read_step (r : ReadEnv) (s : State) : bool * State :=
  if negb (loop_guard s) then (false, set_read_thread (Some false) s)
  else match r with
       | NothingWaiting => (true, s)
       | ReadData [] => (true, s)
       | ReadData c => (true, if data_callback s then log_rx c s else s)
       | ReadRaises OtherException => (true, s)
       | ReadRaises _ => (false, set_read_thread (Some false) (set_is_open false s))
       end.

(** Outcome of the device calls in [write]: [serial_port.write(data)]
    returns a count or raises; [serial_port.flush()] succeeds or raises. *)
Record WriteEnv := mkWriteEnv {
  env_write : nat + exn;
  env_flush : option exn
}.

(** [UARTManager.write] (lines 105-125).  Every handler of the [try]
    returns [False]; the three [except] clauses differ only in the log. *)
Definition write (w : WriteEnv) (data : list byte) (s : State) : bool * State :=
  match serial_port s with
  | None => (false, s)
  | Some p =>
      if negb (port_is_open p) then (false, s)
      else
        let s1 := log_tx (port_id p, data) s in
        match env_write w with
        | inr _ => (false, s1)
        | inl _bytes_written =>
            match env_flush w with
            | Some _ => (false, s1)
            | None => (true, s1)
            end
        end
  end.

(** [UARTManager.get_status] (lines 131-140). *)
Definition get_status (cfg : Settings) (s : State) : UARTStatus :=
  mkUARTStatus (is_open s) (uart_port cfg) (uart_baudrate cfg)
    (uart_bytesize cfg) (uart_stopbits cfg) (uart_parity cfg).

(** [UARTManager.is_connected] (lines 142-144). *)
Definition is_connected (s : State) : bool :=
  is_open s && match serial_port s with Some p => port_is_open p | None => false end.

(** The lifecycle fields of the link: the handle, the open flag, the
    reader-thread flags. *)
Definition link_view (s : State) : option Port * bool * option bool * bool :=
  (serial_port s, is_open s, read_thread s, running s).

(** [UARTManager.set_data_callback] (lines 127-129). *)
Definition set_data_callback (s : State) : State :=
  mkState (serial_port s) (is_open s) (read_thread s) (running s) true (tx_log s) (rx_chunks s).

(** The [while] loop of [_read_loop] run over the outcomes [rs] of its
    successive iterations, up to its exit or the end of [rs]. *)
Fixpoint read_loop (rs : list ReadEnv) (s : State) : State :=
  match rs with
  | [] => s
  | r :: rs' => let '(go_on, s') := read_step r s in if go_on then read_loop rs' s' else s'
  end.

(** The outcomes that end the loop: those caught by
    [except serial.SerialException]. *)
Definition stops_loop (r : ReadEnv) : bool :=
  match r with ReadRaises SerialException | ReadRaises SerialTimeoutException => true | _ => false end.

(** The non-empty chunks read before the first outcome that ends the loop. *)
Fixpoint chunks_before (rs : list ReadEnv) : list (list byte) :=
  match rs with
  | [] => []
  | ReadData [] :: rs' => chunks_before rs'
  | ReadData c :: rs' => c :: chunks_before rs'
  | r :: rs' => if stops_loop r then [] else chunks_before rs'
  end.

(** Every call the program makes on the manager, and one iteration of a
    reader thread. *)
Inductive UOp :=
  | UConnect (e : ConnectEnv)
  | UDisconnect (joined : bool)
  | UWrite (w : WriteEnv) (data : list byte)
  | URead (r : ReadEnv)
  | USetCallback.

Definition run_uop (op : UOp) (s : State) : State :=
  match op with
  | UConnect e => snd (connect e s)
  | UDisconnect j => disconnect j s
  | UWrite w d => snd (write w d s)
  | URead r => snd (read_step r s)
  | USetCallback => set_data_callback s
  end.

Fixpoint run_uops (ops : list UOp) (s : State) : State :=
  match ops with
  | [] => s
  | op :: ops' => run_uops ops' (run_uop op s)
  end.

End UART.

(* ------------------------------------------------------------------ *)
(** ** websocket_handler.py *)

Module WS.

(** Outcome of one awaited [send_bytes] / [send_text] on a session:
    success, [WebSocketDisconnect], or any other [Exception]. *)
Inductive SendOutcome := SendOk | SendDisconnect | SendError.

(** A frame sent to a session: a JSON text ([InfoMessage]) or binary. *)
Inductive Msg := MText (m : InfoMessage) | MBytes (b : list byte).

(** The [logger.error] / [logger.debug] calls of the failure handlers. *)
Inductive LogEntry :=
  | LogBroadcastDisconnect | LogBroadcastError | LogSendError | LogJsonError.

(** Sessions are compared by identity: a session is its id.  [trace]
    records, in order, every send made to a session with its outcome. *)
Record State := mkState {
  active_connections : gset nat;
  trace : list (nat * Msg * SendOutcome);
  log : list LogEntry
}.

Definition init : State := mkState ∅ [] [].

Definition set_active (a : gset nat) (s : State) : State :=
  mkState a (trace s) (log s).
Definition record_send (ws : nat) (m : Msg) (o : SendOutcome) (s : State) : State :=
  mkState (active_connections s) (trace s ++ [(ws, m, o)]) (log s).
Definition add_log (l : LogEntry) (s : State) : State :=
  mkState (active_connections s) (trace s) (log s ++ [l]).

Definition failing (o : SendOutcome) : bool :=
  match o with SendOk => false | _ => true end.

(** [WebSocketManager.send_info] (lines 55-60): the exception is caught
    and logged. *)
Definition send_info (ws : nat) (info : InfoMessage) (o : SendOutcome) (s : State) : State :=
  let s1 := record_send ws (MText info) o s in
  if failing o then add_log LogJsonError s1 else s1.

(** [WebSocketManager.send_personal_message] (lines 48-53). *)
Definition send_personal_message (message : list byte) (ws : nat) (o : SendOutcome)
    (s : State) : State :=
  let s1 := record_send ws (MBytes message) o s in
  if failing o then add_log LogSendError s1 else s1.

Definition welcome (st : UARTStatus) : InfoMessage :=
  mkInfoMessage KInfo "Connected to UART WebSocket Bridge" (Some st).

(** [WebSocketManager.connect] (lines 19-37).  [accepted] is the outcome
    of [await websocket.accept()]: when it raises, the coroutine ends
    before touching the manager ([None]).  No [await] lies between the
    insertion and the call of [send_info], so no other coroutine runs
    there. *)
Definition connect (cfg : Settings) (u : UART.State) (accepted : bool) (ws : nat)
    (o : SendOutcome) (s : State) : option State :=
  if accepted then
    let s1 := set_active ({[ws]} ∪ active_connections s) s in
    Some (send_info ws (welcome (UART.get_status cfg u)) o s1)
  else None.

(** [WebSocketManager.disconnect] (lines 39-46). *)
Definition disconnect (ws : nat) (s : State) : State :=
  set_active (active_connections s ∖ {[ws]}) s.

(** The [for] loop of [broadcast] (lines 69-77) over the snapshot [conns].
    [out c] is the outcome of [connection.send_bytes(message)]; while the
    [i]-th send is awaited, other coroutines may join or leave, which
    changes the registry by [mid i].  [disc] is the set [disconnected]. *)
Fixpoint bcast_loop (out : nat -> SendOutcome) (mid : nat -> gset nat -> gset nat)
    (message : list byte) (i : nat) (conns : list nat) (s : State) (disc : gset nat)
    : State * gset nat :=
  match conns with
  | [] => (s, disc)
  | c :: cs =>
      let s1 := record_send c (MBytes message) (out c) s in
      let s2 := set_active (mid i (active_connections s1)) s1 in
      match out c with
      | SendOk => bcast_loop out mid message (S i) cs s2 disc
      | SendDisconnect =>
          bcast_loop out mid message (S i) cs (add_log LogBroadcastDisconnect s2) (disc ∪ {[c]})
      | SendError =>
          bcast_loop out mid message (S i) cs (add_log LogBroadcastError s2) (disc ∪ {[c]})
      end
  end.

(** [WebSocketManager.broadcast] (lines 62-83): snapshot under the lock,
    send to each snapshotted session, then one locked update discarding
    every session of [disconnected]. *)
Definition broadcast (out : nat -> SendOutcome) (mid : nat -> gset nat -> gset nat)
    (message : list byte) (s : State) : State :=
  let connections := elements (active_connections s) in
  let '(s1, disconnected) := bcast_loop out mid message 0 connections s ∅ in
  if decide (disconnected = ∅) then s1
  else set_active (foldl (fun a c => a ∖ {[c]}) (active_connections s1)
                         (elements disconnected)) s1.

(** [WebSocketManager.get_connections_count] (lines 95-97). *)
Definition get_connections_count (s : State) : nat := size (active_connections s).

(** No coroutine runs between two sends. *)
Definition no_interleaving : nat -> gset nat -> gset nat := fun _ r => r.

(** Operations of the coroutines that use the manager. *)
Inductive Op :=
  | OpConnect (u : UART.State) (accepted : bool) (ws : nat) (o : SendOutcome)
  | OpDisconnect (ws : nat)
  | OpBroadcast (out : nat -> SendOutcome) (mid : nat -> gset nat -> gset nat)
      (message : list byte)
  | OpSendInfo (ws : nat) (info : InfoMessage) (o : SendOutcome)
  | OpSendPersonal (message : list byte) (ws : nat) (o : SendOutcome).

Definition run_op (cfg : Settings) (op : Op) (s : State) : State :=
  match op with
  | OpConnect u acc ws o => match connect cfg u acc ws o s with Some s' => s' | None => s end
  | OpDisconnect ws => disconnect ws s
  | OpBroadcast out mid m => broadcast out mid m s
  | OpSendInfo ws info o => send_info ws info o s
  | OpSendPersonal m ws o => send_personal_message m ws o s
  end.

Fixpoint run_ops (cfg : Settings) (ops : list Op) (s : State) : State :=
  match ops with
  | [] => s
  | op :: ops' => run_ops cfg ops' (run_op cfg op s)
  end.

(** The registry after the [n] interleaved steps [mid i], ..., [mid (i+n-1)]. *)
Fixpoint apply_mid (mid : nat -> gset nat -> gset nat) (i n : nat) (r : gset nat) : gset nat :=
  match n with
  | 0 => r
  | S n' => apply_mid mid (S i) n' (mid i r)
  end.

(** The sends addressed to session [ws] in a trace. *)
Definition sends_to (ws : nat) (t : list (nat * Msg * SendOutcome)) :=
  filter (fun e => e.1.1 = ws) t.

(** The sessions of [conns] whose send fails under [out]. *)
Definition failed_of (out : nat -> SendOutcome) (conns : list nat) : list nat :=
  filter (fun c => failing (out c) = true) conns.

End WS.

(* ------------------------------------------------------------------ *)
(** ** main.py: [send_to_uart] and [bytes.fromhex] *)

Module Main.

(** ASCII whitespace skipped by [bytes.fromhex] ([Py_ISSPACE]). *)
Definition is_space (c : ascii) : bool :=
  let n := nat_of_ascii c in Nat.eqb n 32 || (Nat.leb 9 n && Nat.leb n 13).

(** Hexadecimal digit value, case-insensitive. *)
Definition hex_digit (c : ascii) : option nat :=
  let n := nat_of_ascii c in
  if Nat.leb 48 n && Nat.leb n 57 then Some (n - 48)
  else if Nat.leb 97 n && Nat.leb n 102 then Some (n - 87)
  else if Nat.leb 65 n && Nat.leb n 70 then Some (n - 55)
  else None.

Definition byte_of (hi lo : nat) : byte :=
  match Byte.of_nat (hi * 16 + lo)%nat with Some b => b | None => x00 end.

(** The loop of CPython's [_PyBytes_FromHex]: whitespace between pairs
    is skipped, each pair of hex digits gives one byte, anything else
    raises [ValueError] ([None]). *)
Fixpoint fromhex_chars (l : list ascii) : option (list byte) :=
  match l with
  | [] => Some []
  | c :: r =>
      if is_space c then fromhex_chars r
      else match hex_digit c, r with
           | Some hi, c2 :: r2 =>
               match hex_digit c2 with
               | Some lo => option_map (cons (byte_of hi lo)) (fromhex_chars r2)
               | None => None
               end
           | _, _ => None
           end
  end.

(** [bytes.fromhex]. *)
Definition fromhex (s : string) : option (list byte) := fromhex_chars (list_ascii_of_string s).

(** [SendDataResponse] (models.py); the message text is not modelled. *)
Inductive RespStatus := RSuccess | RError.
Record SendDataResponse := mkResp { status : RespStatus; bytes_sent : nat }.

(** [send_to_uart] (lines 133-170): a [ValueError] of [fromhex] becomes
    an HTTP 400 ([inl 400]); [write] raises nothing, so the 500 handler is
    not reached. *)
Definition send_to_uart (w : UART.WriteEnv) (data : string) (u : UART.State)
    : nat + (SendDataResponse * UART.State) :=
  match fromhex data with
  | None => inl 400
  | Some bytes_data =>
      let '(success, u') := UART.write w bytes_data u in
      if success then inr (mkResp RSuccess (length bytes_data), u')
      else inr (mkResp RError 0, u')
  end.

(** [bytes.hex()], as printed by the debug logs (uart_manager.py line 114,
    main.py line 209): two lower-case hex digits per byte. *)
Definition hex_char (n : nat) : ascii :=
  ascii_of_nat (if Nat.ltb n 10 then 48 + n else 87 + n).
Definition hex_of_byte (b : byte) : list ascii :=
  [hex_char (Byte.to_nat b / 16); hex_char (Byte.to_nat b mod 16)].
Definition bytes_hex (bs : list byte) : string :=
  string_of_list_ascii (flat_map hex_of_byte bs).

(** [ReconnectResponse] (models.py); the message text is not modelled. *)
Record ReconnectResponse := mkReconnect {
  rc_status : RespStatus;
  rc_uart_status : UARTStatus
}.

(** [reconnect_uart] (lines 109-130): [disconnect] then [connect]. *)
Definition reconnect_uart (cfg : Settings) (joined : bool) (e : UART.ConnectEnv)
    (u : UART.State) : ReconnectResponse * UART.State :=
  let u1 := UART.disconnect joined u in
  let '(success, u2) := UART.connect e u1 in
  (mkReconnect (if success then RSuccess else RError) (UART.get_status cfg u2), u2).

(** One binary frame received by [websocket_endpoint], with the outcome of
    [uart_manager.write] on it and of sending the error message. *)
Record Frame := mkFrame {
  frame_data : list byte;
  frame_write : UART.WriteEnv;
  frame_err_send : WS.SendOutcome
}.

Definition write_error_text : string := "Не удалось отправить данные в UART".

(** The [while True] loop of [websocket_endpoint] (lines 204-219) over the
    frames received before [receive_bytes] raises. *)
Fixpoint endpoint_loop (cfg : Settings) (ws : nat) (frames : list Frame)
    (u : UART.State) (s : WS.State) : UART.State * WS.State :=
  match frames with
  | [] => (u, s)
  | f :: fs =>
      let '(ok, u') := UART.write (frame_write f) (frame_data f) u in
      if ok then endpoint_loop cfg ws fs u' s
      else
        let error_msg := mkInfoMessage KError write_error_text (Some (UART.get_status cfg u')) in
        endpoint_loop cfg ws fs u' (WS.send_info ws error_msg (frame_err_send f) s)
  end.

(** [websocket_endpoint] (lines 193-226): join, forward every received
    frame, and on [WebSocketDisconnect] or any other exception leave.  An
    exception of [accept] inside [ws_manager.connect] escapes ([None]). *)
Definition websocket_endpoint (cfg : Settings) (u : UART.State) (accepted : bool) (ws : nat)
    (o : WS.SendOutcome) (frames : list Frame) (s : WS.State)
    : option (UART.State * WS.State) :=
  match WS.connect cfg u accepted ws o s with
  | None => None
  | Some s1 => let '(u', s2) := endpoint_loop cfg ws frames u s1 in Some (u', WS.disconnect ws s2)
  end.

End Main.

(* ------------------------------------------------------------------ *)
(** ** Concrete configurations and states used by the examples *)

Module Scenarios.

(** A simulated device [sim0] at 9600 baud, 8N1. *)
Definition cfg_sim0 : Settings := mkSettings "sim0" 9600 8 1 "N".

(** The link right after a successful [connect] on handle 1. *)
Definition s_open : UART.State :=
  snd (UART.connect (UART.mkConnectEnv (Some 1%nat) true) UART.init).

(** The state after a successful [connect] whose reader loop then hits a
    [SerialException]. *)
Definition after_read_error : UART.State :=
  snd (UART.read_step (UART.ReadRaises SerialException) s_open).

(** Two joined sessions 1 and 2. *)
Definition sAB : WS.State := WS.set_active ({[1%nat]} ∪ {[2%nat]}) WS.init.

(** Every send succeeds except those to session 2. *)
Definition out_b_fails (c : nat) : WS.SendOutcome :=
  if Nat.eqb c 2 then WS.SendError else WS.SendOk.

End Scenarios.

(* ------------------------------------------------------------------ *)
(** ** Interleaving of the event-loop thread and the reader threads *)

(** Every caller of [UARTManager.write], [connect] and [disconnect]
    ([lifespan], [reconnect_uart], [send_to_uart], [websocket_endpoint] in
    main.py) is an [async def] run by the one asyncio event-loop thread, and
    none of these three methods awaits: a call runs to completion on that
    thread before the loop resumes any other coroutine.  The reader threads
    started by [connect] run [_read_loop] concurrently with it.  A
    configuration therefore has one program counter for the event-loop
    thread and one per reader thread.  A device call that can overlap a
    call of the other thread is split into a begin step and an end step;
    everything else is one atomic step. *)

Module Conc.
Import UART.

(** Program counter of a reader thread: at the test of the [while] of
    [_read_loop], inside the device calls [in_waiting] / [read] of one
    iteration on handle [h], or terminated. *)
Inductive RPc := RLoop | RRead (h : nat) | RDead.

(** Program counter of the event-loop thread: between calls, inside
    [serial_port.write(data)] / [flush()] on handle [h], inside
    [read_thread.join(timeout=2)], or inside [serial_port.close()] on
    handle [h]. *)
Inductive ELPc :=
  | EIdle
  | EWrite (h : nat) (w : WriteEnv) (data : list byte)
  | EJoin
  | EClose (h : nat).

(** The shared [UARTManager] attributes [cu]; the thread objects: those
    that [self.read_thread] no longer refers to ([old_threads]) and the one
    it refers to ([cur_thread]; the [read_thread] field of [cu] is not
    consulted here); the event-loop counter; and whether some
    [join(timeout=2)] returned with its thread still alive. *)
Record Conf := mkConf {
  cu : State;
  old_threads : list RPc;
  cur_thread : option RPc;
  el : ELPc;
  join_timed_out : bool
}.

Definition init_conf : Conf := mkConf init [] None EIdle false.

Definition set_cu (s : State) (c : Conf) : Conf :=
  mkConf s (old_threads c) (cur_thread c) (el c) (join_timed_out c).
Definition set_old (o : list RPc) (c : Conf) : Conf :=
  mkConf (cu c) o (cur_thread c) (el c) (join_timed_out c).
Definition set_cur (t : option RPc) (c : Conf) : Conf :=
  mkConf (cu c) (old_threads c) t (el c) (join_timed_out c).
Definition set_el (e : ELPc) (c : Conf) : Conf :=
  mkConf (cu c) (old_threads c) (cur_thread c) e (join_timed_out c).
Definition set_timed_out (c : Conf) : Conf :=
  mkConf (cu c) (old_threads c) (cur_thread c) (el c) true.

(** The [while] test of [_read_loop]: when it holds the thread enters the
    device calls of the body on the current handle, otherwise it ends. *)
Definition rt_begin (s : State) : RPc :=
  match running s, serial_port s with
  | true, Some p => if port_is_open p then RRead (port_id p) else RDead
  | _, _ => RDead
  end.

(** The end of the body of [_read_loop]: back to the [while] test, or
    [is_open = False; break] after a [serial.SerialException]. *)
Definition rt_end (r : ReadEnv) (s : State) : RPc * State :=
  match r with
  | NothingWaiting => (RLoop, s)
  | ReadData [] => (RLoop, s)
  | ReadData c => (RLoop, if data_callback s then log_rx c s else s)
  | ReadRaises OtherException => (RLoop, s)
  | ReadRaises _ => (RDead, set_is_open false s)
  end.

Definition rt_step (r : ReadEnv) (pc : RPc) (s : State) : option (RPc * State) :=
  match pc with
  | RLoop => Some (rt_begin s, s)
  | RRead _ => Some (rt_end r s)
  | RDead => None
  end.

(** [connect] as one step of the event-loop thread: the fields as in
    [UART.connect]; a fresh thread object is created when [serial.Serial]
    returned, and it runs when [start()] succeeded. *)
Definition connect_conf (e : ConnectEnv) (c : Conf) : Conf :=
  if is_open (cu c) then c
  else match env_open e with
       | None => set_cu (snd (connect e (cu c))) c
       | Some _ =>
           set_cur (Some (if env_thread_ok e then RLoop else RDead))
             (set_old (old_threads c ++ option_list (cur_thread c))
                (set_cu (snd (connect e (cu c))) c))
       end.

(** The end of [disconnect]: [self.is_open = False; self.serial_port = None]. *)
Definition finish (c : Conf) : Conf :=
  set_el EIdle (set_cu (set_port None (set_is_open false (cu c))) c).

(** After the [join]: [serial_port.close()] when the handle is open. *)
Definition after_join (c : Conf) : Conf :=
  match serial_port (cu c) with
  | Some p => if port_is_open p then set_el (EClose (port_id p)) c else finish c
  | None => finish c
  end.

(** The steps of the system. *)
Inductive step : Conf -> Conf -> Prop :=
  | st_cur (r : ReadEnv) (c : Conf) (pc pc' : RPc) (s' : State) :
      cur_thread c = Some pc -> rt_step r pc (cu c) = Some (pc', s') ->
      step c (set_cur (Some pc') (set_cu s' c))
  | st_old (r : ReadEnv) (c : Conf) (j : nat) (pc pc' : RPc) (s' : State) :
      old_threads c !! j = Some pc -> rt_step r pc (cu c) = Some (pc', s') ->
      step c (set_old (<[j := pc']> (old_threads c)) (set_cu s' c))
  | st_connect (e : ConnectEnv) (c : Conf) :
      el c = EIdle -> step c (connect_conf e c)
  | st_write_begin (w : WriteEnv) (data : list byte) (c : Conf) (p : Port) :
      el c = EIdle -> serial_port (cu c) = Some p -> port_is_open p = true ->
      step c (set_el (EWrite (port_id p) w data) c)
  | st_write_end (h : nat) (w : WriteEnv) (data : list byte) (c : Conf) :
      el c = EWrite h w data ->
      step c (set_el EIdle (set_cu (snd (write w data (cu c))) c))
  | st_disconnect_begin (c : Conf) :
      el c = EIdle -> step c (set_el EJoin (set_cu (set_running false (cu c)) c))
  | st_join_done (c : Conf) :
      el c = EJoin -> (forall pc, cur_thread c = Some pc -> pc = RDead) ->
      step c (after_join c)
  | st_join_timeout (c : Conf) (pc : RPc) :
      el c = EJoin -> cur_thread c = Some pc -> pc <> RDead ->
      step c (after_join (set_timed_out c))
  | st_close_end (h : nat) (c : Conf) :
      el c = EClose h -> step c (finish c).

(** The configurations reachable from the start of the program. *)
Inductive reach : Conf -> Prop :=
  | reach_init : reach init_conf
  | reach_step (c c' : Conf) : reach c -> step c c' -> reach c'.

(** The device calls in progress in a configuration, per handle. *)
Inductive DevOp := DRead (h : nat) | DWrite (h : nat) | DClose (h : nat).

Definition el_op (e : ELPc) : list DevOp :=
  match e with
  | EWrite h _ _ => [DWrite h]
  | EClose h => [DClose h]
  | _ => []
  end.

Definition rt_op (pc : RPc) : list DevOp :=
  match pc with RRead h => [DRead h] | _ => [] end.

Definition in_progress (c : Conf) : list DevOp :=
  el_op (el c) ++ flat_map rt_op (option_list (cur_thread c) ++ old_threads c).

Definition is_write_or_close (d : DevOp) : bool :=
  match d with DRead _ => false | _ => true end.

(** The serialisation property: at most one write or close in progress,
    and never a read and a close in progress on the same handle. *)
Definition serialised (c : Conf) : Prop :=
  length (filter (fun d => is_write_or_close d = true) (in_progress c)) <= 1 /\
  ~ (exists h, DClose h ∈ in_progress c /\ DRead h ∈ in_progress c).

(** A run: [connect] opens handle 1 and starts its reader thread; the
    thread passes the [while] test and enters [read]; [disconnect] clears
    [running]; its [join(timeout=2)] returns with the thread still inside
    [read]; [close()] starts on handle 1. *)
Definition run_c1 : Conf := connect_conf (mkConnectEnv (Some 1%nat) true) init_conf.
Definition run_c2 : Conf := set_cur (Some (RRead 1)) (set_cu (cu run_c1) run_c1).
Definition run_c3 : Conf := set_el EJoin (set_cu (set_running false (cu run_c2)) run_c2).
Definition run_c4 : Conf := after_join (set_timed_out run_c3).

End Conc.

(* ------------------------------------------------------------------ *)
(** * Properties of the serial link *)

Import UART Scenarios.
Open Scope list_scope.

Example fromhex_hello :
  Main.fromhex "48656c6c6f" = Some (list_byte_of_string "Hello").
Proof. reflexivity. Qed.

Example fromhex_spaces :
  Main.fromhex " 48 65" = Some [x48; x65] /\ Main.fromhex "4 8" = None /\
  Main.fromhex "486" = None.
Proof. repeat split; reflexivity. Qed.

(** Claim C1 (code_bug).  After the reader loop observed a device read
    error the link is not Open ([is_open] and [status().connected] are
    false, [is_connected] is false), yet [write] still reaches the device
    and returns true when the device call raises nothing: [write] tests
    the handle's own [is_open], which the reader loop never clears. *)
Theorem write_after_read_error_succeeds (cfg : Settings) :
  is_open after_read_error = false /\
  connected (get_status cfg after_read_error) = false /\
  is_connected after_read_error = false /\
  write (mkWriteEnv (inl 1%nat) None) [x48] after_read_error =
    (true, log_tx (1%nat, [x48]) after_read_error).
Proof. repeat split; reflexivity. Qed.

(** Claim C3.  A [connect] that returns true leaves [status().connected]
    true, and a repeated [connect] keeps it so without change; after
    [disconnect], and after a repeated [disconnect], [status().connected]
    is false and no handle is held. *)
Theorem connect_disconnect_status (cfg : Settings) :
  (forall (e : ConnectEnv) (s s' : State), connect e s = (true, s') ->
     connected (get_status cfg s') = true /\
     forall e' : ConnectEnv, connect e' s' = (true, s')) /\
  (forall (j : bool) (s : State),
     connected (get_status cfg (disconnect j s)) = false /\
     forall j' : bool,
       connected (get_status cfg (disconnect j' (disconnect j s))) = false /\
       serial_port (disconnect j' (disconnect j s)) = None).
Proof.
  split.
  - intros e s s' H. unfold connect in H.
    destruct (is_open s) eqn:Ho.
    + injection H as <-. split; [exact Ho|]. intros e'. unfold connect. now rewrite Ho.
    + destruct (env_open e) as [id|]; [|discriminate].
      destruct (env_thread_ok e); [|discriminate].
      injection H as <-. split; [reflexivity|]. intros e'. reflexivity.
  - intros j s. split; [reflexivity|]. intros j'. split; reflexivity.
Qed.

Lemma connect_disconnect_status_witness :
  connected (get_status cfg_sim0 s_open) = true /\
  connected (get_status cfg_sim0 (disconnect false (disconnect false s_open))) = false.
Proof.
  destruct (connect_disconnect_status cfg_sim0) as [Hc Hd]. split.
  - exact (proj1 (Hc (mkConnectEnv (Some 1%nat) true) init s_open eq_refl)).
  - exact (proj1 (proj2 (Hd false s_open) false)).
Defined.

(** Claim C5.  When the device [write] or [flush] raises, [write] returns
    false and the handle, the open flag and the reader-thread flags are
    unchanged. *)
Theorem write_failure_keeps_link (w : WriteEnv) (data : list byte) (s : State) :
  ((exists x, env_write w = inr x) \/
   (exists n x, env_write w = inl n /\ env_flush w = Some x)) ->
  fst (write w data s) = false /\ link_view (snd (write w data s)) = link_view s.
Proof.
  intros Hfail. unfold write.
  destruct (serial_port s) as [p|] eqn:Hp; [|split; reflexivity].
  destruct (port_is_open p); simpl; [|split; reflexivity].
  destruct Hfail as [[x Hx] | [n [x [Hn Hx]]]].
  - rewrite Hx. split; reflexivity.
  - rewrite Hn, Hx. split; reflexivity.
Qed.

Lemma write_failure_keeps_link_witness :
  fst (write (mkWriteEnv (inr SerialTimeoutException) None) [x48] s_open) = false.
Proof.
  exact (proj1 (write_failure_keeps_link (mkWriteEnv (inr SerialTimeoutException) None)
                  [x48] s_open (or_introl (ex_intro _ SerialTimeoutException eq_refl)))).
Defined.

(** Claim C6.  On an Open link [connect] returns true and leaves the
    state untouched. *)
Theorem connect_idempotent (e : ConnectEnv) (s : State) :
  is_open s = true -> connect e s = (true, s).
Proof. intros H. unfold connect. now rewrite H. Qed.

Lemma connect_idempotent_witness :
  connect (mkConnectEnv None false) s_open = (true, s_open).
Proof. exact (connect_idempotent (mkConnectEnv None false) s_open eq_refl). Defined.

(** Claim C10.  Whenever the device [write] returns (any count [n], even
    fewer than [length data]) and [flush] raises nothing, [write] returns
    true. *)
Theorem write_ignores_count (n : nat) (data : list byte) (s : State) (p : Port) :
  serial_port s = Some p -> port_is_open p = true ->
  fst (write (mkWriteEnv (inl n) None) data s) = true.
Proof. intros Hp Ho. unfold write. rewrite Hp, Ho. reflexivity. Qed.

Lemma write_ignores_count_witness :
  fst (write (mkWriteEnv (inl 0%nat) None) [x48; x65] s_open) = true.
Proof. exact (write_ignores_count 0 [x48; x65] s_open (mkPort 1 true) eq_refl eq_refl). Defined.

(** Claim C8.  For a hex string that [bytes.fromhex] decodes to [bs],
    [send_to_uart] passes exactly [bs] to [write], [write] hands exactly
    [bs] to the open device handle, and a success response reports
    [bytes_sent = length bs]. *)
Theorem send_to_uart_hex (w : WriteEnv) (hex : string) (bs : list byte) (u : State) :
  Main.fromhex hex = Some bs ->
  exists ok u' r, write w bs u = (ok, u') /\
    Main.send_to_uart w hex u = inr (r, u') /\
    (Main.status r = Main.RSuccess <-> ok = true) /\
    (Main.status r = Main.RSuccess -> Main.bytes_sent r = length bs) /\
    (forall p, serial_port u = Some p -> port_is_open p = true ->
       tx_log u' = tx_log u ++ [(port_id p, bs)]).
Proof.
  intros Hhex. destruct (write w bs u) as [ok u'] eqn:Hw.
  exists ok, u', (if ok then Main.mkResp Main.RSuccess (length bs) else Main.mkResp Main.RError 0).
  split; [reflexivity|]. split.
  { unfold Main.send_to_uart. rewrite Hhex, Hw. destruct ok; reflexivity. }
  split; [destruct ok; simpl; split; congruence|].
  split; [destruct ok; simpl; congruence|].
  intros p Hp Ho. unfold write in Hw. rewrite Hp, Ho in Hw. simpl in Hw.
  destruct (env_write w) as [n|x]; [destruct (env_flush w)|];
    injection Hw as _ <-; reflexivity.
Qed.

Lemma send_to_uart_hex_witness :
  exists r u', Main.send_to_uart (mkWriteEnv (inl 5%nat) None) "48656c6c6f" s_open = inr (r, u') /\
    (Main.status r = Main.RSuccess -> Main.bytes_sent r = 5%nat).
Proof.
  destruct (send_to_uart_hex (mkWriteEnv (inl 5%nat) None) "48656c6c6f"
              (list_byte_of_string "Hello") s_open eq_refl) as (ok & u' & r & _ & Hs & _ & Hb & _).
  exists r, u'. split; [exact Hs | exact Hb].
Defined.

(* ------------------------------------------------------------------ *)
(** * Properties of the session manager *)

Module WSFacts.
Import WS Scenarios.

Lemma bcast_loop_trace out mid message i conns s disc :
  trace (fst (bcast_loop out mid message i conns s disc)) =
  trace s ++ map (fun c => (c, MBytes message, out c)) conns.
Proof.
  revert i s disc. induction conns as [|c cs IH]; intros i s disc; simpl.
  - by rewrite app_nil_r.
  - destruct (out c); rewrite IH; simpl; by rewrite <-app_assoc.
Qed.

Lemma bcast_loop_active out mid message i conns s disc :
  active_connections (fst (bcast_loop out mid message i conns s disc)) =
  apply_mid mid i (length conns) (active_connections s).
Proof.
  revert i s disc. induction conns as [|c cs IH]; intros i s disc; simpl; [done|].
  destruct (out c); by rewrite IH.
Qed.

Lemma bcast_loop_disc out mid message i conns s disc :
  snd (bcast_loop out mid message i conns s disc) =
  disc ∪ list_to_set (failed_of out conns).
Proof.
  revert i s disc. unfold failed_of.
  induction conns as [|c cs IH]; intros i s disc; simpl.
  - set_solver.
  - destruct (out c) eqn:Ho; rewrite IH; rewrite filter_cons, Ho; simpl; set_solver.
Qed.

Lemma foldl_discard (a : gset nat) (l : list nat) :
  foldl (fun a c => a ∖ {[c]}) a l = a ∖ list_to_set l.
Proof.
  revert a. induction l as [|c l IH]; intros a; simpl; [set_solver|].
  rewrite IH. set_solver.
Qed.

Lemma apply_mid_none i n r : apply_mid no_interleaving i n r = r.
Proof. revert i. induction n as [|n IH]; intros i; simpl; auto. Qed.

Lemma sends_to_none (c : nat) (t : list (nat * Msg * SendOutcome)) :
  (forall e, e ∈ t -> e.1.1 <> c) -> sends_to c t = [].
Proof.
  unfold sends_to. induction t as [|e t IH]; intros H; [done|].
  rewrite filter_cons_False; [apply IH; set_solver|]. apply H. set_solver.
Qed.

Lemma sends_to_map_in (f : nat -> nat * Msg * SendOutcome) (l : list nat) (c : nat) :
  (forall x, (f x).1.1 = x) -> NoDup l -> c ∈ l -> sends_to c (map f l) = [f c].
Proof.
  intros Hf. induction l as [|x l IH]; intros Hnd Hin; [set_solver|].
  apply NoDup_cons in Hnd as [Hx Hnd]. unfold sends_to in *. simpl.
  rewrite filter_cons. rewrite Hf.
  destruct (decide (x = c)) as [->|Hne].
  - f_equal. apply sends_to_none.
    intros e He. apply list_elem_of_In, in_map_iff in He as [y [<- Hy%list_elem_of_In]].
    rewrite Hf. intros ->. contradiction.
  - apply IH; [done|]. set_solver.
Qed.

Lemma sends_to_map_notin (f : nat -> nat * Msg * SendOutcome) (l : list nat) (c : nat) :
  (forall x, (f x).1.1 = x) -> c ∉ l -> sends_to c (map f l) = [].
Proof.
  intros Hf Hc. apply sends_to_none.
  intros e He. apply list_elem_of_In, in_map_iff in He as [y [<- Hy%list_elem_of_In]].
  rewrite Hf. intros ->. contradiction.
Qed.

Lemma broadcast_trace out mid message s :
  trace (broadcast out mid message s) =
  trace s ++ map (fun c => (c, MBytes message, out c)) (elements (active_connections s)).
Proof.
  unfold broadcast.
  destruct (bcast_loop _ _ _ _ _ _ _) as [s1 d] eqn:E.
  pose proof (bcast_loop_trace out mid message 0 (elements (active_connections s)) s ∅) as Ht.
  rewrite E in Ht. simpl in Ht.
  destruct (decide (d = ∅)); exact Ht.
Qed.

Lemma broadcast_active out mid message s :
  active_connections (broadcast out mid message s) =
  apply_mid mid 0 (length (elements (active_connections s))) (active_connections s)
    ∖ list_to_set (failed_of out (elements (active_connections s))).
Proof.
  unfold broadcast.
  destruct (bcast_loop _ _ _ _ _ _ _) as [s1 d] eqn:E.
  pose proof (bcast_loop_active out mid message 0 (elements (active_connections s)) s ∅) as Ha.
  pose proof (bcast_loop_disc out mid message 0 (elements (active_connections s)) s ∅) as Hd.
  rewrite E in Ha, Hd. simpl in Ha, Hd. subst d.
  destruct (decide _) as [He|Hne]; simpl.
  - rewrite Ha. set_solver.
  - rewrite foldl_discard, list_to_set_elements_L, Ha. set_solver.
Qed.

Lemma run_op_prefix cfg op s : exists rest, trace (run_op cfg op s) = trace s ++ rest.
Proof.
  destruct op as [u acc ws o|ws|out mid m|ws info o|m ws o]; simpl.
  - destruct acc; simpl; [|exists []; by rewrite app_nil_r].
    unfold send_info. destruct (failing o); eexists; reflexivity.
  - exists []. by rewrite app_nil_r.
  - eexists. apply broadcast_trace.
  - unfold send_info. destruct (failing o); eexists; reflexivity.
  - unfold send_personal_message. destruct (failing o); eexists; reflexivity.
Qed.

Lemma run_ops_prefix cfg ops s : exists rest, trace (run_ops cfg ops s) = trace s ++ rest.
Proof.
  revert s. induction ops as [|op ops IH]; intros s; simpl.
  - exists []. by rewrite app_nil_r.
  - destruct (run_op_prefix cfg op s) as [r1 H1].
    destruct (IH (run_op cfg op s)) as [r2 H2].
    exists (r1 ++ r2). by rewrite H2, H1, app_assoc.
Qed.

(** Claim C2.  [broadcast] sends over the snapshot [elements] of the
    registry taken before the first send: the sends of the call are one
    binary frame per snapshotted session, so a snapshotted session whose
    send succeeds gets [message] exactly once and a session outside the
    snapshot gets nothing; the failed sessions are removed from the
    registry in one update after the loop (whatever joined or left
    meanwhile, [mid]); with no interleaved coroutine the count drops by
    exactly the number of failed sessions. *)
Theorem broadcast_spec (out : nat -> SendOutcome) (mid : nat -> gset nat -> gset nat)
    (message : list byte) (s : State) :
  let snap := elements (active_connections s) in
  let failed := failed_of out snap in
  let s' := broadcast out mid message s in
  (exists seg, trace s' = trace s ++ seg /\
     seg = map (fun c => (c, MBytes message, out c)) snap /\
     (forall c, c ∈ snap -> out c = SendOk -> sends_to c seg = [(c, MBytes message, SendOk)]) /\
     (forall c, c ∉ snap -> sends_to c seg = [])) /\
  active_connections s' =
    apply_mid mid 0 (length snap) (active_connections s) ∖ list_to_set failed /\
  (mid = no_interleaving ->
     get_connections_count s' = get_connections_count s - length failed).
Proof.
  cbv zeta.
  pose proof (broadcast_active out mid message s) as Hact.
  split; [|split; [exact Hact|]].
  - eexists. split; [apply broadcast_trace|]. split; [reflexivity|]. split.
    + intros c Hc Ho.
      rewrite (sends_to_map_in (fun c => (c, MBytes message, out c))); [by rewrite Ho|done| |done].
      apply NoDup_elements.
    + intros c Hc. by apply sends_to_map_notin.
  - intros ->. unfold get_connections_count. rewrite Hact, apply_mid_none.
    rewrite size_difference.
    + rewrite size_list_to_set; [done|]. apply NoDup_filter, NoDup_elements.
    + intros c Hc. apply elem_of_list_to_set, list_elem_of_filter in Hc as [_ Hc].
      by apply elem_of_elements.
Qed.

Lemma broadcast_spec_witness :
  get_connections_count (broadcast out_b_fails no_interleaving [x01; x02] sAB) = 1%nat.
Proof.
  pose proof (broadcast_spec out_b_fails no_interleaving [x01; x02] sAB) as H.
  cbv zeta in H. destruct H as (_ & _ & H). rewrite (H eq_refl). vm_compute. reflexivity.
Defined.

(** Claim C4.  A completed [connect] of a session that was never sent
    anything puts it in the registry and makes exactly one send to it: an
    [InfoMessage] of kind info carrying [get_status] of the link at that
    moment; whatever runs afterwards, that message stays the first one
    ever sent to the session, so it precedes every broadcast frame. *)
Theorem connect_welcome_first (cfg : Settings) (u : UART.State) (acc : bool) (ws : nat)
    (o : SendOutcome) (s s' : State) :
  sends_to ws (trace s) = [] ->
  connect cfg u acc ws o s = Some s' ->
  ws ∈ active_connections s' /\
  exists info, trace s' = trace s ++ [(ws, MText info, o)] /\
    info_type info = KInfo /\ uartStatus info = Some (UART.get_status cfg u) /\
    forall ops, exists rest,
      sends_to ws (trace (run_ops cfg ops s')) = (ws, MText info, o) :: rest.
Proof.
  intros Hnew Hc. unfold connect in Hc. destruct acc; [|discriminate].
  injection Hc as <-.
  assert (Ht : trace (send_info ws (welcome (UART.get_status cfg u)) o
                 (set_active ({[ws]} ∪ active_connections s) s)) =
               trace s ++ [(ws, MText (welcome (UART.get_status cfg u)), o)]).
  { unfold send_info. by destruct (failing o). }
  split.
  { unfold send_info. destruct (failing o); simpl; set_solver. }
  exists (welcome (UART.get_status cfg u)). split; [exact Ht|].
  split; [reflexivity|]. split; [reflexivity|].
  intros ops.
  destruct (run_ops_prefix cfg ops
    (send_info ws (welcome (UART.get_status cfg u)) o
       (set_active ({[ws]} ∪ active_connections s) s))) as [rest Hr].
  exists (sends_to ws rest). rewrite Hr, Ht. unfold sends_to in *.
  rewrite !filter_app, Hnew. simpl. rewrite filter_cons_True; done.
Qed.

Lemma connect_welcome_first_witness :
  7%nat ∈ active_connections (run_op cfg_sim0 (OpConnect s_open true 7 SendOk) sAB).
Proof.
  exact (proj1 (connect_welcome_first cfg_sim0 s_open true 7 SendOk sAB _ eq_refl eq_refl)).
Defined.

(** Claim C7.  A failed [send_info] or [send_personal_message] is logged
    and leaves the registry as it was, while a session whose [broadcast]
    send fails is no longer registered afterwards. *)
Theorem caller_send_failure_keeps_session (ws : nat) (info : InfoMessage)
    (message : list byte) (o : SendOutcome) (s : State) :
  failing o = true ->
  active_connections (send_info ws info o s) = active_connections s /\
  log (send_info ws info o s) = log s ++ [LogJsonError] /\
  active_connections (send_personal_message message ws o s) = active_connections s /\
  log (send_personal_message message ws o s) = log s ++ [LogSendError] /\
  (forall out m, ws ∈ active_connections s -> failing (out ws) = true ->
     ws ∉ active_connections (broadcast out no_interleaving m s)).
Proof.
  intros Ho. unfold send_info, send_personal_message. rewrite Ho.
  split; [done|]. split; [done|]. split; [done|]. split; [done|].
  intros out m Hin Hf.
  rewrite broadcast_active, apply_mid_none.
  assert (ws ∈ (list_to_set (failed_of out (elements (active_connections s))) : gset nat)).
  { apply elem_of_list_to_set, list_elem_of_filter. split; [done|].
    by apply elem_of_elements. }
  set_solver.
Qed.

Lemma caller_send_failure_keeps_session_witness :
  2%nat ∉ active_connections (broadcast out_b_fails no_interleaving [x01; x02] sAB).
Proof.
  destruct (caller_send_failure_keeps_session 2 (welcome (UART.get_status cfg_sim0 s_open))
              [x01] SendError sAB eq_refl) as (_ & _ & _ & _ & H).
  apply H; [set_solver | reflexivity].
Defined.

End WSFacts.

(* ------------------------------------------------------------------ *)
(** * Further properties of the serial link, the HTTP handlers and the
      WebSocket endpoint *)

Module LinkFacts.
Import UART.

Lemma read_step_continue (r : ReadEnv) (s s' : State) :
  loop_guard s = true -> read_step r s = (true, s') ->
  loop_guard s' = true /\ serial_port s' = serial_port s /\ tx_log s' = tx_log s /\
  is_open s' = is_open s /\ data_callback s' = data_callback s /\
  rx_chunks s' = rx_chunks s ++
    match r with ReadData c => if data_callback s then (match c with [] => [] | _ => [c] end) else [] | _ => [] end.
Proof.
  intros Hg Hr. unfold read_step in Hr. rewrite Hg in Hr. simpl in Hr.
  destruct r as [|[|b c]|[| |]]; try discriminate; injection Hr as <-;
    destruct (data_callback s) eqn:Hcb; unfold loop_guard, log_rx in *; simpl;
    rewrite ?app_nil_r, ?Hcb; repeat split; done.
Qed.

(** While the loop runs, the registered callback receives every non-empty
    chunk that is read, once and in order, up to the first
    [SerialException]; empty reads, idle polls and other exceptions pass
    no chunk; without a callback nothing is delivered. *)
Theorem read_loop_delivers (rs : list ReadEnv) (s : State) :
  loop_guard s = true ->
  rx_chunks (read_loop rs s) = rx_chunks s ++ (if data_callback s then chunks_before rs else []).
Proof.
  revert s. induction rs as [|r rs IH]; intros s Hg; simpl.
  - destruct (data_callback s); by rewrite app_nil_r.
  - destruct (read_step r s) as [[|] s'] eqn:Hr.
    + destruct (read_step_continue r s s' Hg Hr) as (Hg' & _ & _ & _ & Hcb & Hrx).
      rewrite IH by done. rewrite Hrx, Hcb, <-app_assoc. f_equal.
      unfold read_step in Hr. rewrite Hg in Hr. simpl in Hr.
      destruct r as [|[|b c]|[| |]]; try discriminate;
        destruct (data_callback s); reflexivity.
    + unfold read_step in Hr. rewrite Hg in Hr. simpl in Hr.
      destruct r as [|[|b c]|[| |]]; try discriminate; injection Hr as <-; simpl;
        destruct (data_callback s); by rewrite app_nil_r.
Qed.

Lemma read_loop_delivers_witness :
  rx_chunks (read_loop [ReadData [x01]; ReadData []; NothingWaiting; ReadData [x02];
                        ReadRaises SerialException; ReadData [x03]] (set_data_callback s_open))
  = [[x01]; [x02]].
Proof.
  exact (read_loop_delivers [ReadData [x01]; ReadData []; NothingWaiting; ReadData [x02];
                             ReadRaises SerialException; ReadData [x03]]
                            (set_data_callback s_open) eq_refl).
Defined.

(** The reader loop never closes, replaces or drops the device handle and
    never writes; it clears [is_open] exactly when some iteration raises a
    [SerialException], and leaves it as it was otherwise. *)
Theorem read_loop_keeps_handle (rs : list ReadEnv) (s : State) :
  loop_guard s = true ->
  serial_port (read_loop rs s) = serial_port s /\ tx_log (read_loop rs s) = tx_log s /\
  is_open (read_loop rs s) = (if existsb stops_loop rs then false else is_open s).
Proof.
  revert s. induction rs as [|r rs IH]; intros s Hg; simpl; [done|].
  destruct (read_step r s) as [[|] s'] eqn:Hr.
  - destruct (read_step_continue r s s' Hg Hr) as (Hg' & Hp & Ht & Ho & _ & _).
    destruct (IH s' Hg') as (Hp' & Ht' & Ho').
    rewrite Hp', Ht', Ho', Hp, Ht, Ho. split; [done|]. split; [done|].
    replace (stops_loop r) with false; [done|].
    unfold read_step in Hr. rewrite Hg in Hr. simpl in Hr.
    destruct r as [|[|b c]|[| |]]; try discriminate; done.
  - unfold read_step in Hr. rewrite Hg in Hr. simpl in Hr.
    destruct r as [|[|b c]|[| |]]; try discriminate; injection Hr as <-; done.
Qed.

Lemma read_loop_keeps_handle_witness :
  serial_port (read_loop [ReadRaises SerialException] s_open) = Some (mkPort 1 true) /\
  is_open (read_loop [ReadRaises SerialException] s_open) = false.
Proof.
  destruct (read_loop_keeps_handle [ReadRaises SerialException] s_open eq_refl) as (Hp & _ & Ho).
  split; [exact Hp | exact Ho].
Defined.

(** The invariant of the lifecycle fields: an open link holds an open
    handle and has [running] set. *)
Definition link_inv (s : State) : Prop :=
  is_open s = true -> (exists p, serial_port s = Some p /\ port_is_open p = true) /\ running s = true.

Lemma write_link (w : WriteEnv) (d : list byte) (s : State) :
  serial_port (snd (write w d s)) = serial_port s /\ is_open (snd (write w d s)) = is_open s /\
  running (snd (write w d s)) = running s /\ read_thread (snd (write w d s)) = read_thread s.
Proof.
  unfold write. destruct (serial_port s) as [p|] eqn:Hp; [|done].
  destruct (port_is_open p); simpl; [|rewrite Hp; done].
  destruct (env_write w); [destruct (env_flush w)|]; simpl; rewrite Hp; done.
Qed.

Lemma run_uop_inv (op : UOp) (s : State) : link_inv s -> link_inv (run_uop op s).
Proof.
  unfold link_inv. intros Hinv. destruct op as [e|j|w d|r|]; simpl.
  - unfold connect. destruct (is_open s) eqn:Ho; [simpl; intros _; by apply Hinv|].
    destruct (env_open e) as [id|]; [|simpl; discriminate].
    destruct (env_thread_ok e); simpl; [|discriminate].
    intros _. split; [eexists; split; reflexivity|reflexivity].
  - unfold disconnect. destruct (read_thread s) as [[|]|]; [destruct j| |]; simpl; discriminate.
  - intros Ho. destruct (write_link w d s) as (Hp & Hio & Hr & _).
    rewrite Hp, Hr. apply Hinv. by rewrite <-Hio.
  - unfold read_step. destruct (loop_guard s); simpl; [|exact Hinv].
    destruct r as [|[|b c]|[| |]]; try exact Hinv;
      try (intros H; simpl in H; discriminate H).
    destruct (data_callback s); exact Hinv.
  - exact Hinv.
Qed.

(** In every state the program can reach from [__init__] (any sequence of
    [connect], [disconnect], [write], [set_data_callback] and reader-loop
    iterations), an open link holds an open handle and [running] is set;
    so [is_connected()] (the [/health] answer) always equals
    [get_status().connected] (the [/api/status] answer). *)
Theorem reachable_link_consistent (cfg : Settings) (ops : list UOp) :
  link_inv (run_uops ops init) /\
  is_connected (run_uops ops init) = connected (get_status cfg (run_uops ops init)).
Proof.
  assert (H : forall s, link_inv s -> link_inv (run_uops ops s)).
  { induction ops as [|op ops IH]; intros s Hs; simpl; [done|]. apply IH, run_uop_inv, Hs. }
  pose proof (H init ltac:(unfold link_inv; simpl; discriminate)) as Hinv.
  split; [exact Hinv|].
  unfold is_connected, get_status; simpl.
  destruct (is_open (run_uops ops init)) eqn:Ho; [|reflexivity].
  destruct (Hinv Ho) as [[p [-> Hp]] _]. exact Hp.
Qed.

(** When [serial.Serial] succeeds but starting the reader thread raises,
    [connect] returns false and the status says disconnected, yet the new
    handle stays stored and open, with no reader: a later [write] still
    reaches the device and can return true. *)
Theorem connect_thread_failure_keeps_handle (e : ConnectEnv) (s : State) (id : nat) :
  is_open s = false -> env_open e = Some id -> env_thread_ok e = false ->
  fst (connect e s) = false /\ is_open (snd (connect e s)) = false /\
  serial_port (snd (connect e s)) = Some (mkPort id true) /\
  forall (data : list byte) (n : nat),
    fst (write (mkWriteEnv (inl n) None) data (snd (connect e s))) = true.
Proof.
  intros Ho He Ht. unfold connect. rewrite Ho, He, Ht. simpl.
  split; [done|]. split; [done|]. split; [done|]. intros data n. reflexivity.
Qed.

Lemma connect_thread_failure_keeps_handle_witness :
  fst (write (mkWriteEnv (inl 1%nat) None) [x48]
         (snd (connect (mkConnectEnv (Some 3%nat) false) init))) = true.
Proof.
  exact (proj2 (proj2 (proj2 (connect_thread_failure_keeps_handle
            (mkConnectEnv (Some 3%nat) false) init 3 eq_refl eq_refl eq_refl))) [x48] 1).
Defined.

End LinkFacts.

Module HttpFacts.
Import UART Main Scenarios.

(** [reconnect_uart] answers "success" exactly when the status it returns
    says connected, and exactly when a fresh handle was opened and its
    reader started: the link is closed and reopened even when it was
    already open. *)
Theorem reconnect_status_consistent (cfg : Settings) (j : bool) (e : ConnectEnv) (u : State) :
  (rc_status (fst (reconnect_uart cfg j e u)) = RSuccess <->
   connected (rc_uart_status (fst (reconnect_uart cfg j e u))) = true) /\
  (rc_status (fst (reconnect_uart cfg j e u)) = RSuccess <->
   exists id, env_open e = Some id /\ env_thread_ok e = true /\
     serial_port (snd (reconnect_uart cfg j e u)) = Some (mkPort id true)).
Proof.
  unfold reconnect_uart.
  assert (Hd : is_open (disconnect j u) = false).
  { unfold disconnect. by destruct (read_thread u) as [[|]|]; [destruct j| |]. }
  unfold connect at 1 2 3 4. rewrite Hd.
  destruct (env_open e) as [id|]; [destruct (env_thread_ok e)|]; simpl.
  - split; [done|]. split; [intros _; by exists id|done].
  - split; [split; discriminate|]. split; [discriminate|]. intros (? & _ & ? & _). discriminate.
  - split; [split; discriminate|]. split; [discriminate|]. intros (? & ? & _). discriminate.
Qed.

(** When the device cannot be opened, [reconnect_uart] answers "error",
    reports disconnected, and holds no handle at all: the old one was
    closed and dropped by [disconnect]. *)
Theorem reconnect_open_failure (cfg : Settings) (j : bool) (e : ConnectEnv) (u : State) :
  env_open e = None ->
  rc_status (fst (reconnect_uart cfg j e u)) = RError /\
  connected (rc_uart_status (fst (reconnect_uart cfg j e u))) = false /\
  serial_port (snd (reconnect_uart cfg j e u)) = None.
Proof.
  intros He. unfold reconnect_uart.
  assert (Hd : is_open (disconnect j u) = false).
  { unfold disconnect. by destruct (read_thread u) as [[|]|]; [destruct j| |]. }
  unfold connect. rewrite Hd, He. simpl.
  split; [done|]. split; [done|].
  unfold disconnect. by destruct (read_thread u) as [[|]|]; [destruct j| |].
Qed.

Lemma reconnect_open_failure_witness :
  serial_port (snd (reconnect_uart cfg_sim0 true (mkConnectEnv None true) s_open)) = None.
Proof.
  exact (proj2 (proj2 (reconnect_open_failure cfg_sim0 true (mkConnectEnv None true) s_open eq_refl))).
Defined.

Lemma fromhex_hex_byte (b : byte) (rest : list ascii) :
  fromhex_chars (hex_of_byte b ++ rest) = option_map (cons b) (fromhex_chars rest).
Proof. destruct b; reflexivity. Qed.

Lemma fromhex_bytes_hex (bs : list byte) : fromhex (bytes_hex bs) = Some bs.
Proof.
  unfold fromhex, bytes_hex. rewrite list_ascii_of_string_of_list_ascii.
  induction bs as [|b bs IH]; [done|]. cbn [flat_map].
  rewrite fromhex_hex_byte, IH. reflexivity.
Qed.

(** Every payload can be sent through [send_to_uart] by its [bytes.hex()]
    text, the form the debug logs print: [write] receives exactly that
    payload and a success reports all its bytes. *)
Theorem send_to_uart_hex_roundtrip (w : WriteEnv) (bs : list byte) (u : State) :
  send_to_uart w (bytes_hex bs) u =
  inr (if fst (write w bs u) then mkResp RSuccess (length bs) else mkResp RError 0,
       snd (write w bs u)).
Proof.
  unfold send_to_uart. rewrite fromhex_bytes_hex.
  destruct (write w bs u) as [[|] u']; reflexivity.
Qed.

Lemma fromhex_chars_length (l : list ascii) (bs : list byte) :
  fromhex_chars l = Some bs ->
  2 * length bs = length (filter (fun c => is_space c = false) l).
Proof.
  remember (length l) as n eqn:Hn. assert (Hle : length l <= n) by lia. clear Hn.
  revert l bs Hle. induction n as [n IH] using lt_wf_ind.
  intros l bs Hle H. destruct l as [|c r]; simpl in H.
  - injection H as <-. reflexivity.
  - rewrite filter_cons. destruct (is_space c) eqn:Hs.
    + rewrite decide_False by discriminate. simpl in Hle. apply (IH (length r)); [lia|lia|exact H].
    + rewrite decide_True by reflexivity.
      destruct (hex_digit c) as [hi|]; [|discriminate].
      destruct r as [|c2 r2]; [discriminate|].
      destruct (hex_digit c2) as [lo|] eqn:Hlo; [|discriminate].
      destruct (fromhex_chars r2) as [bs2|] eqn:Hr2; [|discriminate].
      simpl in H. injection H as <-.
      assert (Hs2 : is_space c2 = false).
      { unfold hex_digit in Hlo. unfold is_space.
        destruct (Nat.eqb (nat_of_ascii c2) 32) eqn:E1;
          [apply Nat.eqb_eq in E1; rewrite E1 in Hlo; discriminate|].
        destruct (Nat.leb 9 (nat_of_ascii c2) && Nat.leb (nat_of_ascii c2) 13) eqn:E2; [|done].
        apply andb_true_iff in E2 as [E2 E3]. apply Nat.leb_le in E2, E3.
        destruct (Nat.leb 48 (nat_of_ascii c2) && Nat.leb (nat_of_ascii c2) 57) eqn:E4.
        { apply andb_true_iff in E4 as [E4 _]. apply Nat.leb_le in E4. lia. }
        destruct (Nat.leb 97 (nat_of_ascii c2) && Nat.leb (nat_of_ascii c2) 102) eqn:E5.
        { apply andb_true_iff in E5 as [E5 _]. apply Nat.leb_le in E5. lia. }
        destruct (Nat.leb 65 (nat_of_ascii c2) && Nat.leb (nat_of_ascii c2) 70) eqn:E6.
        { apply andb_true_iff in E6 as [E6 _]. apply Nat.leb_le in E6. lia. }
        discriminate. }
      rewrite filter_cons, decide_True by exact Hs2.
      simpl length. simpl in Hle. rewrite <-(IH (length r2) ltac:(lia) r2 bs2 ltac:(lia) Hr2). lia.
Qed.

(** A successful [send_to_uart] reports as [bytes_sent] half the number
    of non-whitespace characters of the request's hex text. *)
Theorem send_to_uart_bytes_sent (w : WriteEnv) (hex : string) (u u' : State) (r : SendDataResponse) :
  send_to_uart w hex u = inr (r, u') -> status r = RSuccess ->
  2 * bytes_sent r = length (filter (fun c => is_space c = false) (list_ascii_of_string hex)).
Proof.
  unfold send_to_uart. destruct (fromhex hex) as [bs|] eqn:Hh; [|discriminate].
  destruct (write w bs u) as [[|] u1]; intros H Hs; injection H as <- _; [|discriminate].
  simpl. apply fromhex_chars_length, Hh.
Qed.

Lemma send_to_uart_bytes_sent_witness :
  2 * bytes_sent (mkResp RSuccess 2) =
  length (filter (fun c => is_space c = false) (list_ascii_of_string " 48 65 ")).
Proof.
  exact (send_to_uart_bytes_sent (mkWriteEnv (inl 2%nat) None) " 48 65 " s_open
           (log_tx (1%nat, [x48; x65]) s_open) (mkResp RSuccess 2) eq_refl eq_refl).
Defined.

End HttpFacts.

Module EndpointFacts.
Import WS Main Scenarios.

Definition write_fails (u : UART.State) (f : Frame) : bool :=
  negb (fst (UART.write (frame_write f) (frame_data f) u)).

Definition error_reply (cfg : Settings) (u : UART.State) (ws : nat) (f : Frame) :=
  (ws, MText (mkInfoMessage KError write_error_text (Some (UART.get_status cfg u))), frame_err_send f).

Lemma write_result_port (w : UART.WriteEnv) (d : list byte) (u u0 : UART.State) :
  UART.serial_port u = UART.serial_port u0 -> fst (UART.write w d u) = fst (UART.write w d u0).
Proof.
  intros Hp. unfold UART.write. rewrite Hp.
  destruct (UART.serial_port u0) as [p|]; [|done].
  destruct (UART.port_is_open p); simpl; [|done].
  destruct (UART.env_write w); [destruct (UART.env_flush w)|]; done.
Qed.

Lemma send_info_trace ws info o s : trace (send_info ws info o s) = trace s ++ [(ws, MText info, o)].
Proof. unfold send_info. by destruct (failing o). Qed.

Lemma send_info_active ws info o s : active_connections (send_info ws info o s) = active_connections s.
Proof. unfold send_info. by destruct (failing o). Qed.

Lemma sends_to_all (ws : nat) (t : list (nat * Msg * SendOutcome)) :
  Forall (fun e => e.1.1 = ws) t -> sends_to ws t = t.
Proof.
  unfold sends_to. induction 1 as [|e t He Ht IH]; [done|].
  rewrite filter_cons_True by exact He. by rewrite IH.
Qed.

Lemma endpoint_loop_active cfg ws fs u s :
  active_connections (snd (endpoint_loop cfg ws fs u s)) = active_connections s.
Proof.
  revert u s. induction fs as [|f fs IH]; intros u s; simpl; [done|].
  destruct (UART.write _ _ u) as [[|] u']; rewrite IH; [done|apply send_info_active].
Qed.

Lemma endpoint_loop_trace cfg ws fs u0 u s :
  UART.serial_port u = UART.serial_port u0 -> UART.is_open u = UART.is_open u0 ->
  trace (snd (endpoint_loop cfg ws fs u s)) =
  trace s ++ map (error_reply cfg u0 ws) (filter (fun f => write_fails u0 f = true) fs).
Proof.
  revert u s. induction fs as [|f fs IH]; intros u s Hp Ho; simpl; [by rewrite app_nil_r|].
  destruct (LinkFacts.write_link (frame_write f) (frame_data f) u) as (Hp' & Ho' & _ & _).
  assert (Hf : write_fails u0 f = negb (fst (UART.write (frame_write f) (frame_data f) u))).
  { unfold write_fails. by rewrite (write_result_port _ _ u u0 Hp). }
  rewrite filter_cons.
  destruct (UART.write (frame_write f) (frame_data f) u) as [ok u'] eqn:Hw;
    simpl in Hp', Ho', Hf |- *.
  destruct ok; simpl in Hf.
  - rewrite decide_False by (rewrite Hf; discriminate). apply IH; congruence.
  - rewrite decide_True by exact Hf. rewrite IH by congruence.
    rewrite send_info_trace, <-app_assoc. simpl. unfold error_reply.
    unfold UART.get_status. rewrite Ho', Ho. reflexivity.
Qed.

Lemma endpoint_loop_tx cfg ws fs u s p :
  UART.serial_port u = Some p -> UART.port_is_open p = true ->
  UART.tx_log (fst (endpoint_loop cfg ws fs u s)) =
    UART.tx_log u ++ map (fun f => (UART.port_id p, frame_data f)) fs /\
  UART.link_view (fst (endpoint_loop cfg ws fs u s)) = UART.link_view u.
Proof.
  revert u s. induction fs as [|f fs IH]; intros u s Hp Ho; simpl; [by rewrite app_nil_r|].
  assert (Hw : snd (UART.write (frame_write f) (frame_data f) u) =
               UART.log_tx (UART.port_id p, frame_data f) u).
  { unfold UART.write. rewrite Hp, Ho. simpl.
    destruct (UART.env_write _); [destruct (UART.env_flush _)|]; reflexivity. }
  destruct (UART.write (frame_write f) (frame_data f) u) as [ok u'] eqn:E. simpl in Hw. subst u'.
  destruct ok;
    (lazymatch goal with
     | |- context [endpoint_loop _ _ _ ?u1 ?s1] => destruct (IH u1 s1 Hp Ho) as [Ht Hl]
     end;
     rewrite Ht, Hl; simpl; split; [by rewrite <-app_assoc | reflexivity]).
Qed.

(** Whatever frames a [/ws] session sends and however it ends, once the
    handler returns the session is unregistered and every other session
    is registered exactly as before. *)
Theorem endpoint_unregisters (cfg : Settings) (u : UART.State) (acc : bool) (ws : nat)
    (o : SendOutcome) (fs : list Frame) (s : State) (u' : UART.State) (s' : State) :
  websocket_endpoint cfg u acc ws o fs s = Some (u', s') ->
  (ws ∉ active_connections s') /\
  forall c, c <> ws -> (c ∈ active_connections s' <-> c ∈ active_connections s).
Proof.
  unfold websocket_endpoint. destruct (connect cfg u acc ws o s) as [s1|] eqn:Hc; [|discriminate].
  destruct (endpoint_loop cfg ws fs u s1) as [u2 s2] eqn:El. intros H. injection H as <- <-.
  pose proof (endpoint_loop_active cfg ws fs u s1) as Ha. rewrite El in Ha. simpl in Ha.
  unfold connect in Hc. destruct acc; [|discriminate]. injection Hc as <-.
  rewrite send_info_active in Ha. simpl in Ha.
  unfold disconnect. simpl. rewrite Ha. split; [set_solver|]. intros c Hne. set_solver.
Qed.

(** The three frames used by the examples: one written, one whose device
    write times out, one written. *)
Definition frames3 : list Frame :=
  [mkFrame [x01] (UART.mkWriteEnv (inl 1%nat) None) SendOk;
   mkFrame [x02] (UART.mkWriteEnv (inr SerialTimeoutException) None) SendOk;
   mkFrame [x03] (UART.mkWriteEnv (inl 1%nat) None) SendOk].

Lemma endpoint_unregisters_witness :
  exists u' s', websocket_endpoint cfg_sim0 s_open true 7 SendOk frames3 sAB = Some (u', s') /\
    7%nat ∉ active_connections s'.
Proof.
  eexists _, _. split; [reflexivity|].
  exact (proj1 (endpoint_unregisters cfg_sim0 s_open true 7 SendOk frames3 sAB _ _ eq_refl)).
Defined.

(** On an open link the handler hands every received frame, in order, to
    the device's [write], and never changes the link's lifecycle fields. *)
Theorem endpoint_forwards_frames (cfg : Settings) (u : UART.State) (acc : bool) (ws : nat)
    (o : SendOutcome) (fs : list Frame) (s : State) (u' : UART.State) (s' : State)
    (p : UART.Port) :
  UART.serial_port u = Some p -> UART.port_is_open p = true ->
  websocket_endpoint cfg u acc ws o fs s = Some (u', s') ->
  UART.tx_log u' = UART.tx_log u ++ map (fun f => (UART.port_id p, frame_data f)) fs /\
  UART.link_view u' = UART.link_view u.
Proof.
  intros Hp Ho. unfold websocket_endpoint.
  destruct (connect cfg u acc ws o s) as [s1|]; [|discriminate].
  pose proof (endpoint_loop_tx cfg ws fs u s1 p Hp Ho) as Ht.
  destruct (endpoint_loop cfg ws fs u s1) as [u2 s2]. intros H. injection H as <- _.
  exact Ht.
Qed.

Lemma endpoint_forwards_frames_witness :
  exists u' s', websocket_endpoint cfg_sim0 s_open true 7 SendOk frames3 sAB = Some (u', s') /\
    UART.tx_log u' = [(1%nat, [x01]); (1%nat, [x02]); (1%nat, [x03])].
Proof.
  eexists _, _. split; [reflexivity|].
  exact (proj1 (endpoint_forwards_frames cfg_sim0 s_open true 7 SendOk frames3 sAB _ _
                  (UART.mkPort 1 true) eq_refl eq_refl eq_refl)).
Defined.

(** What the handler sends to its own session: first the welcome
    message, then one [InfoMessage] of kind error, carrying the link
    status, for each frame whose [write] returned false, in order, and
    nothing for the frames written. *)
Theorem endpoint_replies (cfg : Settings) (u : UART.State) (acc : bool) (ws : nat)
    (o : SendOutcome) (fs : list Frame) (s : State) (u' : UART.State) (s' : State) :
  sends_to ws (trace s) = [] ->
  websocket_endpoint cfg u acc ws o fs s = Some (u', s') ->
  sends_to ws (trace s') =
    (ws, MText (welcome (UART.get_status cfg u)), o) ::
    map (error_reply cfg u ws) (filter (fun f => write_fails u f = true) fs).
Proof.
  intros Hnew. unfold websocket_endpoint.
  destruct (connect cfg u acc ws o s) as [s1|] eqn:Hc; [|discriminate].
  pose proof (endpoint_loop_trace cfg ws fs u u s1 eq_refl eq_refl) as Ht.
  destruct (endpoint_loop cfg ws fs u s1) as [u2 s2]. intros H. injection H as _ <-.
  simpl in Ht. unfold disconnect. simpl. rewrite Ht.
  unfold connect in Hc. destruct acc; [|discriminate]. injection Hc as <-.
  rewrite send_info_trace. simpl. unfold sends_to in *.
  rewrite !filter_app, Hnew. simpl.
  rewrite filter_cons_True by reflexivity. f_equal.
  apply sends_to_all, Forall_forall. intros e He.
  apply list_elem_of_In, in_map_iff in He as [f [<- _]]. reflexivity.
Qed.

Lemma endpoint_replies_witness :
  exists u' s', websocket_endpoint cfg_sim0 s_open true 7 SendOk frames3 sAB = Some (u', s') /\
    length (sends_to 7 (trace s')) = 2%nat.
Proof.
  eexists _, _. split; [reflexivity|].
  rewrite (endpoint_replies cfg_sim0 s_open true 7 SendOk frames3 sAB _ _ eq_refl eq_refl).
  reflexivity.
Defined.

End EndpointFacts.

(* ------------------------------------------------------------------ *)
(** * Interleavings of the event loop and the reader threads *)

Module ConcFacts.
Import Conc.

#[local] Instance RPc_eq_dec : EqDecision RPc.
Proof. solve_decision. Defined.

(** As long as no [join(timeout=2)] returned with its thread alive: every
    thread object [self.read_thread] no longer refers to has terminated,
    and a live current reader thread implies an open link and no
    [close()] in progress. *)
Definition conc_inv (c : Conf) : Prop :=
  join_timed_out c = false ->
  Forall (fun pc => pc = RDead) (old_threads c) /\
  (forall pc, cur_thread c = Some pc -> pc <> RDead ->
     is_open (cu c) = true /\ forall h, el c <> EClose h).

Lemma rt_step_dead (r : ReadEnv) (s : State) : rt_step r RDead s = None.
Proof. reflexivity. Qed.

Lemma rt_step_is_open (r : ReadEnv) (pc pc' : RPc) (s s' : State) :
  rt_step r pc s = Some (pc', s') -> pc' <> RDead -> is_open s' = is_open s.
Proof.
  destruct pc as [| h |]; simpl; intros E Hd; try discriminate.
  - injection E as <- <-; reflexivity.
  - unfold rt_end in E.
    destruct r as [| [| b c] | [] ]; injection E as <- <-; try reflexivity;
      try (exfalso; apply Hd; reflexivity).
    destruct (data_callback s); reflexivity.
Qed.

Lemma write_is_open (w : WriteEnv) (data : list byte) (s : State) :
  is_open (snd (write w data s)) = is_open s.
Proof.
  unfold write. destruct (serial_port s) as [p|]; [|reflexivity].
  destruct (negb (port_is_open p)); [reflexivity|].
  destruct (env_write w); [destruct (env_flush w)|]; reflexivity.
Qed.

Lemma after_join_threads (c : Conf) :
  old_threads (after_join c) = old_threads c /\ cur_thread (after_join c) = cur_thread c /\
  join_timed_out (after_join c) = join_timed_out c.
Proof.
  unfold after_join. destruct (serial_port (cu c)) as [p|]; [destruct (port_is_open p)|];
    repeat split.
Qed.

Lemma after_join_el (c : Conf) (h : nat) :
  el (after_join c) = EClose h -> serial_port (cu c) <> None.
Proof.
  unfold after_join. destruct (serial_port (cu c)) as [p|]; [destruct (port_is_open p)|];
    simpl; discriminate.
Qed.

Lemma conc_inv_init : conc_inv init_conf.
Proof. intros _. split; [constructor | simpl; discriminate]. Qed.

Lemma conc_inv_step (c c' : Conf) : conc_inv c -> step c c' -> conc_inv c'.
Proof.
  intros Hi Hs. destruct Hs as
    [r c pc pc' s' Hc Hr | r c j pc pc' s' Hj Hr | e c He | w data c p He Hp Ho
    | h w data c He | c He | c He Hd | c pc He Hc Hd | h c He];
    unfold conc_inv in *; intros Ht.
  - (* a step of the current reader thread *)
    destruct (Hi Ht) as [Hold Hcur]. split; [exact Hold|].
    intros pc0 E Hd0. simpl in E. injection E as <-.
    destruct (decide (pc = RDead)) as [->|Hpc]; [rewrite rt_step_dead in Hr; discriminate|].
    destruct (Hcur pc Hc Hpc) as [Hop Hel]. simpl.
    rewrite (rt_step_is_open r pc pc' (cu c) s' Hr Hd0). split; [exact Hop | exact Hel].
  - (* a step of a thread [self.read_thread] no longer refers to *)
    destruct (Hi Ht) as [Hold _].
    rewrite (Forall_lookup_1 _ _ _ _ Hold Hj), rt_step_dead in Hr. discriminate.
  - (* connect *)
    assert (Ht0 : join_timed_out c = false).
    { revert Ht. unfold connect_conf.
      destruct (is_open (cu c)); [|destruct (env_open e)]; simpl; auto. }
    destruct (Hi Ht0) as [Hold Hcur]. unfold connect_conf.
    destruct (is_open (cu c)) eqn:Ho; [rewrite Ho; exact (Hi Ht0)|].
    assert (Hcd : forall pc, cur_thread c = Some pc -> pc = RDead).
    { intros pc Hc. destruct (decide (pc = RDead)) as [|Hpc]; [assumption|].
      destruct (Hcur pc Hc Hpc) as [Hop _]. congruence. }
    destruct (env_open e) as [id|] eqn:Eo.
    + simpl. split.
      * apply Forall_app; split; [exact Hold|].
        destruct (cur_thread c) as [t|] eqn:Ec; simpl; [|constructor].
        constructor; [exact (Hcd t eq_refl) | constructor].
      * intros pc E Hd. injection E as <-.
        destruct (env_thread_ok e) eqn:Et; [|exfalso; apply Hd; reflexivity].
        unfold connect. rewrite Ho, Eo, Et. simpl. split; [reflexivity|].
        rewrite He. discriminate.
    + simpl. split; [exact Hold|].
      intros pc Hc Hd. exfalso. apply Hd. exact (Hcd pc Hc).
  - (* write: begin *)
    destruct (Hi Ht) as [Hold Hcur]. split; [exact Hold|].
    intros pc Hc Hd. destruct (Hcur pc Hc Hd) as [Hop _]. split; [exact Hop|].
    simpl. discriminate.
  - (* write: end *)
    destruct (Hi Ht) as [Hold Hcur]. split; [exact Hold|].
    intros pc Hc Hd. destruct (Hcur pc Hc Hd) as [Hop _]. simpl.
    rewrite write_is_open. split; [exact Hop | discriminate].
  - (* disconnect: [running = False] *)
    destruct (Hi Ht) as [Hold Hcur]. split; [exact Hold|].
    intros pc Hc Hd. destruct (Hcur pc Hc Hd) as [Hop _]. simpl.
    split; [exact Hop | discriminate].
  - (* the [join] returned with the thread terminated *)
    destruct (after_join_threads c) as (Eo & Ec & Et).
    rewrite Et in Ht. destruct (Hi Ht) as [Hold _].
    rewrite Eo, Ec. split; [exact Hold|].
    intros pc Hc Hpc. exfalso. apply Hpc. exact (Hd pc Hc).
  - (* the [join] timed out *)
    destruct (after_join_threads (set_timed_out c)) as (_ & _ & Et).
    rewrite Et in Ht. discriminate.
  - (* [close()] ends *)
    destruct (Hi Ht) as [Hold Hcur]. split; [exact Hold|].
    intros pc Hc Hd. exfalso. destruct (Hcur pc Hc Hd) as [_ Hel]. exact (Hel h He).
Qed.

Lemma conc_inv_reach (c : Conf) : reach c -> conc_inv c.
Proof.
  induction 1 as [| c c' _ IH Hs]; [exact conc_inv_init | exact (conc_inv_step c c' IH Hs)].
Qed.

Lemma filter_rt_ops (l : list RPc) :
  filter (fun d => is_write_or_close d = true) (flat_map rt_op l) = [].
Proof.
  induction l as [| a l IH]; [reflexivity|].
  destruct a; simpl; exact IH.
Qed.

Lemma in_rt_ops (d : DevOp) (l : list RPc) :
  In d (flat_map rt_op l) -> exists h, d = DRead h /\ In (RRead h) l.
Proof.
  rewrite in_flat_map. intros (x & Hx & Hd).
  destruct x as [| h |]; simpl in Hd; try contradiction.
  destruct Hd as [<- | []]. exists h. split; [reflexivity | exact Hx].
Qed.

Lemma reach_run_c4 : reach run_c4.
Proof.
  apply (reach_step run_c3); [| apply (st_join_timeout run_c3 (RRead 1));
    [reflexivity | reflexivity | discriminate]].
  apply (reach_step run_c2); [| apply st_disconnect_begin; reflexivity].
  apply (reach_step run_c1);
    [| apply (st_cur NothingWaiting run_c1 RLoop (RRead 1) (cu run_c1)); reflexivity].
  apply (reach_step init_conf); [exact reach_init | apply st_connect; reflexivity].
Qed.

(** Claim C9 (corrected), counterexample.  The property "no two writes,
    no write and close, and no read and close on the same handle are ever
    in progress together" fails in a reachable configuration: after
    [connect], the reader thread enters [read] on handle 1, [disconnect]
    clears [running], its [join(timeout=2)] returns with the thread still
    inside [read], and [close()] starts on handle 1 while that read is in
    progress. *)
Lemma read_close_overlap_reachable : ~ (forall c, reach c -> serialised c).
Proof.
  intros H. destruct (H run_c4 reach_run_c4) as [_ Hn]. apply Hn.
  exists 1%nat. split; apply list_elem_of_In; cbv; auto.
Qed.

(** Claim C9 (corrected).  In every reachable interleaving of the
    event-loop thread with the reader threads, at most one device write or
    close is in progress (they all run on the event-loop thread, and the
    reader threads only read); and a [close()] is in progress on a handle
    together with a read on the same handle only if some
    [join(timeout=2)] of [disconnect] returned with its thread still
    alive. *)
Theorem close_overlaps_read_only_after_timeout (c : Conf) (Hr : reach c) :
  length (filter (fun d => is_write_or_close d = true) (in_progress c)) <= 1 /\
  (forall h, DClose h ∈ in_progress c -> DRead h ∈ in_progress c -> join_timed_out c = true).
Proof.
  unfold in_progress. split.
  - rewrite filter_app, length_app, filter_rt_ops. simpl.
    destruct (el c); simpl; lia.
  - intros h Hcl Hrd. rewrite list_elem_of_In, in_app_iff in Hcl, Hrd.
    assert (Hel : el c = EClose h).
    { destruct Hcl as [Hcl | Hcl].
      - destruct (el c); simpl in Hcl; try contradiction;
          destruct Hcl as [E | []]; congruence.
      - destruct (in_rt_ops _ _ Hcl) as (h' & E & _). discriminate. }
    destruct (join_timed_out c) eqn:Ht; [reflexivity|]. exfalso.
    destruct (conc_inv_reach c Hr Ht) as [Hold Hcur].
    destruct Hrd as [Hrd | Hrd].
    + rewrite Hel in Hrd. destruct Hrd as [E | []]. discriminate.
    + destruct (in_rt_ops _ _ Hrd) as (h' & E & Hin). injection E as E. subst h'.
      apply in_app_iff in Hin. destruct Hin as [Hin | Hin].
      * destruct (cur_thread c) as [t|] eqn:Ec; simpl in Hin; [|contradiction].
        destruct Hin as [Et | []]. subst t.
        destruct (Hcur (RRead h) eq_refl) as [_ Hne]; [discriminate|].
        exact (Hne h Hel).
      * rewrite Forall_forall in Hold.
        specialize (Hold (RRead h) (proj2 (list_elem_of_In _ _) Hin)). discriminate.
Qed.

Lemma close_overlaps_read_only_after_timeout_witness :
  reach run_c4 /\
  length (filter (fun d => is_write_or_close d = true) (in_progress run_c4)) <= 1 /\
  join_timed_out run_c4 = true.
Proof.
  split; [exact reach_run_c4|].
  destruct (close_overlaps_read_only_after_timeout run_c4 reach_run_c4) as [H1 H2].
  split; [exact H1|].
  apply (H2 1%nat); apply list_elem_of_In; cbv; auto.
Defined.

End ConcFacts.
